(** * Feature value holders (dataset columns): a shallow embedding

    The header defines the column hierarchy

      IFeatureValuesHolder
        |- TArrayValuesHolder<T, TType>            (raw data)
        |- IQuantizedFloatValuesHolder / IQuantizedCatValuesHolder
             |- TCompressedValuesHolderImpl<TBase> (bit-packed data)

    Every column borrows a [TFeaturesArraySubsetIndexing] through a raw
    pointer.  Pointers are modelled as [option] ([None] is [nullptr]),
    [ui32] values as [N] (the header does no arithmetic on them), array
    positions as [nat], packed keys and storage words as [Z]. *)

From Stdlib Require Import ZArith Lia SpecFloat.
From stdpp Require Import base numbers strings list.

(** ** Outcomes of fallible code *)

Module Outcome.

(** The two ways the modelled code can leave defined behaviour. *)
Inductive fault : Set :=
| NullDereference   (* [p->m] with [p == nullptr] *)
| OutOfBounds.      (* an array read past its end *)

Inductive outcome (A : Type) : Type :=
| Ok (a : A)
| Throw (msg : string)    (* a failed CB_ENSURE: TCatBoostException(msg) *)
| Undefined (f : fault).  (* undefined behaviour *)

Arguments Ok {A} a.
Arguments Throw {A} msg.
Arguments Undefined {A} f.

Definition bind {A B} (f : A → outcome B) (m : outcome A) : outcome B :=
  match m with
  | Ok a => f a
  | Throw msg => Throw msg
  | Undefined u => Undefined u
  end.

#[export] Instance outcome_ret : MRet outcome := @Ok.
#[export] Instance outcome_bind : MBind outcome := @bind.

(** [CB_ENSURE(cond, msg)] *)
Definition CB_ENSURE (cond : bool) (msg : string) : outcome unit :=
  if cond then Ok () else Throw msg.

(** [*p] / [p->...] *)
Definition deref {A} (p : option A) : outcome A :=
  from_option Ok (Undefined NullDereference) p.

(** [a[i]] on a plain array *)
Definition index {A} (a : list A) (i : nat) : outcome A :=
  from_option Ok (Undefined OutOfBounds) (a !! i).

(** a pointer used as a condition *)
Definition nonnull {A} (p : option A) : bool :=
  match p with Some _ => true | None => false end.

Definition is_ok {A} (o : outcome A) : bool :=
  match o with Ok _ => true | _ => false end.

Definition get_or {A} (d : A) (o : outcome A) : A :=
  match o with Ok a => a | _ => d end.

(** a loop whose body can fail, threading the loop state *)
Fixpoint foldM {S A} (body : S → A → outcome S) (s : S) (l : list A) : outcome S :=
  match l with
  | [] => Ok s
  | a :: l' => s' ← body s a; foldM body s' l'
  end.

End Outcome.
Import Outcome.

Definition ui32 : Set := N.

(** ** Subset indexing (catboost/libs/helpers/array_subset.h) *)

Module ArraySubset.

(** Modelled from the spec: [TArraySubsetIndexing<ui32>] is declared in
    array_subset.h, which is not part of the sources at hand.  The spec
    describes it as an immutable mapping from the logical range [0, N) to
    positions of a stored array that is the identity, a set of disjoint
    blocks, or a permutation, with [size()] and [positionOf(i)]. *)
Inductive TArraySubsetIndexing : Set :=
| TFullSubset (size : nat)
| TRangesSubset (blocks : list (nat * nat))   (* [srcBegin, srcEnd) each *)
| TIndexedSubset (indices : list nat).

(** Modelled from the spec: the physical positions in logical order. *)
Definition positions (s : TArraySubsetIndexing) : list nat :=
  match s with
  | TFullSubset n => seq 0 n
  | TRangesSubset blocks => flat_map (λ b, seq b.1 (b.2 - b.1)) blocks
  | TIndexedSubset indices => indices
  end.

(** Modelled from the spec: [size() -> u32], the logical row count. *)
Definition Size (s : TArraySubsetIndexing) : ui32 :=
  N.of_nat (length (positions s)).

(** Modelled from the spec: [positionOf(logicalIndex) -> physicalIndex]. *)
Definition positionOf (s : TArraySubsetIndexing) (i : nat) : option nat :=
  positions s !! i.

(** Modelled from the spec: [TArraySubset<TSrc, ui32>], the pair of a
    pointer to the source and a pointer to the subset indexing that the
    accessors of the header build with [{&SrcData, SubsetIndexing}]. *)
Record TArraySubset (TSrc : Type) : Type := {
  Src : TSrc;
  SubsetIndexing : option TArraySubsetIndexing
}.
Arguments Src {TSrc} _.
Arguments SubsetIndexing {TSrc} _.

(** Modelled from the spec: reading logical element [i] of a view over a
    plain array goes through the mapping, [src[positionOf(i)]]. *)
Definition at_ {T} (v : TArraySubset (list T)) (i : nat) : outcome T :=
  s ← deref (SubsetIndexing v);
  p ← from_option Ok (Undefined OutOfBounds) (positionOf s i);
  index (Src v) p.

End ArraySubset.
Import ArraySubset.

Abbreviation TFeaturesArraySubsetIndexing := TArraySubsetIndexing (only parsing).

(** ** IFeatureValuesHolder *)

Inductive EFeatureValuesType : Set :=
| Float
| QuantizedFloat
| HashedCategorical
| PerfectHashedCategorical.

Module FeatureValuesHolder.

Record IFeatureValuesHolder : Set := {
  Type_ : EFeatureValuesType;
  FeatureId : ui32;
  Size : ui32
}.

Definition ctor (type : EFeatureValuesType) (featureId size : ui32) : IFeatureValuesHolder :=
  {| Type_ := type; FeatureId := featureId; Size := size |}.

(** [IFeatureValuesHolder(IFeatureValuesHolder&&) = default] *)
Definition move_ctor (arg : IFeatureValuesHolder) : IFeatureValuesHolder :=
  {| Type_ := Type_ arg; FeatureId := FeatureId arg; Size := Size arg |}.

(** [operator=(IFeatureValuesHolder&&) = default]: every member of [this]
    is overwritten with the member of [arg]. *)
Definition move_assign (this arg : IFeatureValuesHolder) : IFeatureValuesHolder :=
  {| Type_ := Type_ arg; FeatureId := FeatureId arg; Size := Size arg |}.

Definition GetType (h : IFeatureValuesHolder) : EFeatureValuesType := Type_ h.
Definition GetSize (h : IFeatureValuesHolder) : ui32 := Size h.
Definition GetId (h : IFeatureValuesHolder) : ui32 := FeatureId h.

End FeatureValuesHolder.
Abbreviation IFeatureValuesHolder := FeatureValuesHolder.IFeatureValuesHolder.

(** ** Raw data: TArrayValuesHolder<T, TType> *)

Module ArrayValuesHolder.
Import FeatureValuesHolder.

(** [TMaybeOwningArrayHolder<T>] is the owned array itself. *)
Record TArrayValuesHolder (T : Type) : Type := {
  Base : IFeatureValuesHolder;
  SrcData : list T;
  SubsetIndexing : option TFeaturesArraySubsetIndexing
}.
Arguments Base {T} _.
Arguments SrcData {T} _.
Arguments SubsetIndexing {T} _.

(** The member initialisers run first, in declaration order, and the base
    initialiser evaluates [subsetIndexing->Size()]; only then does the body
    reach its CB_ENSURE. *)
Definition ctor {T} (TType : EFeatureValuesType) (featureId : ui32)
    (srcData : list T) (subsetIndexing : option TFeaturesArraySubsetIndexing)
    : outcome (TArrayValuesHolder T) :=
  s ← deref subsetIndexing;
  let this :=
    {| Base := FeatureValuesHolder.ctor TType featureId (ArraySubset.Size s);
       SrcData := srcData;
       SubsetIndexing := subsetIndexing |} in
  _ ← CB_ENSURE (nonnull (SubsetIndexing this)) "subsetIndexing is empty"%string;
  Ok this.

(** The implicitly defined move constructor: memberwise. *)
Definition move_ctor {T} (arg : TArrayValuesHolder T) : TArrayValuesHolder T :=
  {| Base := FeatureValuesHolder.move_ctor (Base arg);
     SrcData := SrcData arg;
     SubsetIndexing := SubsetIndexing arg |}.

Definition GetType {T} (h : TArrayValuesHolder T) := FeatureValuesHolder.GetType (Base h).
Definition GetSize {T} (h : TArrayValuesHolder T) := FeatureValuesHolder.GetSize (Base h).
Definition GetId {T} (h : TArrayValuesHolder T) := FeatureValuesHolder.GetId (Base h).

Definition GetArrayData {T} (h : TArrayValuesHolder T) : TArraySubset (list T) :=
  {| ArraySubset.Src := SrcData h;
     ArraySubset.SubsetIndexing := SubsetIndexing h |}.

(** The implicitly defined move assignment: memberwise, base first. *)
Definition move_assign {T} (this arg : TArrayValuesHolder T) : TArrayValuesHolder T :=
  {| Base := FeatureValuesHolder.move_assign (Base this) (Base arg);
     SrcData := SrcData arg;
     SubsetIndexing := SubsetIndexing arg |}.

(** [operator=(IFeatureValuesHolder&&)] of the base class is public and not
    virtual: applied to a column through a reference to its base it
    overwrites the base members and leaves the members of the derived
    class alone. *)
Definition base_move_assign {T} (this : TArrayValuesHolder T)
    (arg : IFeatureValuesHolder) : TArrayValuesHolder T :=
  {| Base := FeatureValuesHolder.move_assign (Base this) arg;
     SrcData := SrcData this;
     SubsetIndexing := SubsetIndexing this |}.

(** The stored size is the logical length of the bound subset indexing. *)
Definition size_bound {T} (h : TArrayValuesHolder T) : Prop :=
  ∃ s, SubsetIndexing h = Some s ∧ GetSize h = ArraySubset.Size s.

(** What a client can do with a column, and the column it is left with.
    The accessors are [const]; move construction makes the new object the
    column; move assignment overwrites the column with another one; move
    assignment through a reference to the base overwrites its base
    members only. *)
Inductive call (T : Type) : Type :=
| CallGetType
| CallGetSize
| CallGetId
| CallGetArrayData
| CallMove
| CallMoveAssign (arg : TArrayValuesHolder T)
| CallBaseMoveAssign (arg : IFeatureValuesHolder).
Arguments CallGetType {T}.
Arguments CallGetSize {T}.
Arguments CallGetId {T}.
Arguments CallGetArrayData {T}.
Arguments CallMove {T}.
Arguments CallMoveAssign {T} arg.
Arguments CallBaseMoveAssign {T} arg.

Definition after {T} (h : TArrayValuesHolder T) (c : call T) : TArrayValuesHolder T :=
  match c with
  | CallGetType | CallGetSize | CallGetId | CallGetArrayData => h
  | CallMove => move_ctor h
  | CallMoveAssign arg => move_assign h arg
  | CallBaseMoveAssign arg => base_move_assign h arg
  end.

Definition is_assignment {T} (c : call T) : bool :=
  match c with
  | CallMoveAssign _ | CallBaseMoveAssign _ => true
  | _ => false
  end.

(** A call that assigns does so as a whole column, from a column with its
    size bound. *)
Definition assigns_bound {T} (c : call T) : Prop :=
  match c with
  | CallMoveAssign arg => size_bound arg
  | CallBaseMoveAssign _ => False
  | _ => True
  end.

Definition TFloatValuesHolder_ctor {T} := @ctor T Float.
Definition THashedCatValuesHolder_ctor := @ctor ui32 HashedCategorical.

End ArrayValuesHolder.

(** ** Packed data (catboost/libs/helpers/compression.h) *)

(** The integer types a packed key can be extracted to. *)
Inductive EIntType : Set := Ui8 | Ui16 | Ui32 | Ui64.

Definition bits (T : EIntType) : Z :=
  match T with Ui8 => 8 | Ui16 => 16 | Ui32 => 32 | Ui64 => 64 end.

(** [static_cast<T>(v)] of an unsigned value *)
Definition cast (T : EIntType) (v : Z) : Z := v `mod` 2 ^ bits T.

(** Addresses; [0] is the null pointer. *)
Definition ptr : Set := N.

Module CompressedArray.

(** Modelled from the spec: [TCompressedArray] is declared in
    compression.h, which is not part of the sources at hand.  The spec
    describes it as a compact bit-packed buffer with a declared
    bits-per-key, a raw pointer to that buffer and a decode operation.
    The buffer is an array of 64-bit words (the native width); a word
    holds [64 / bitsPerKey] keys, key 0 in its lowest bits. *)
Record TCompressedArray : Set := {
  BitsPerKey : Z;
  Storage : list Z;
  RawPtr : ptr
}.

(** Modelled from the spec: [bitsPerKey() -> u32] and
    [rawPointer() -> untyped pointer], pure accessors. *)
Definition GetBitsPerKey (a : TCompressedArray) : Z := BitsPerKey a.
Definition GetRawPtr (a : TCompressedArray) : ptr := RawPtr a.

(** A key that can be written with [bitsPerKey] bits. *)
Definition fits (bitsPerKey : Z) (key : Z) : Prop := (0 ≤ key < 2 ^ bitsPerKey)%Z.

(** Modelled from the spec: how many keys share a storage word, and the
    bits of one key. *)
Definition EntriesPerType (bitsPerKey : Z) : nat := Z.to_nat (64 `div` bitsPerKey).
Definition Mask (bitsPerKey : Z) : Z := Z.ones bitsPerKey.

(** Modelled from the spec: the keys of one word, first key lowest. *)
Fixpoint pack_word (bitsPerKey : Z) (keys : list Z) : Z :=
  match keys with
  | [] => 0
  | k :: keys' =>
      Z.lor (Z.land k (Mask bitsPerKey)) (Z.shiftl (pack_word bitsPerKey keys') bitsPerKey)
  end.

Definition CeilDiv (x y : nat) : nat := (x + y - 1) `div` y.

(** Modelled from the spec: packing a sequence at a given width. *)
Definition CompressVector (bitsPerKey : Z) (data : list Z) : list Z :=
  let e := EntriesPerType bitsPerKey in
  (λ w, pack_word bitsPerKey (take e (drop (w * e) data)))
    <$> seq 0 (CeilDiv (length data) e).

(** Modelled from the spec: the compressed array made of a sequence packed
    into a buffer at the address [buffer]. *)
Definition Pack (bitsPerKey : Z) (data : list Z) (buffer : ptr) : TCompressedArray :=
  {| BitsPerKey := bitsPerKey;
     Storage := CompressVector bitsPerKey data;
     RawPtr := buffer |}.

(** Modelled from the spec: decoding the key at a physical position. *)
Definition Get (a : TCompressedArray) (pos : nat) : outcome Z :=
  let b := BitsPerKey a in
  let e := EntriesPerType b in
  w ← index (Storage a) (pos `div` e);
  Ok (Z.land (Z.shiftr w (Z.of_nat (pos `mod` e) * b)) (Mask b)).

(** Modelled from the spec: the packed width must equal the width of [T]
    exactly; anything else is a precondition violation. *)
Definition CheckIfCanBeInterpretedAsRawArray (T : EIntType) (a : TCompressedArray)
    : outcome unit :=
  CB_ENSURE (bool_decide (BitsPerKey a = bits T))
    "elements of the compressed array are of different size".

(** Modelled from the spec: [TCompressedArray(TCompressedArray&&)] is
    declared in compression.h as well.  A move transfers the ownership of
    the packed buffer; the buffer itself stays where it is. *)
Definition move (a : TCompressedArray) : TCompressedArray :=
  {| BitsPerKey := BitsPerKey a; Storage := Storage a; RawPtr := RawPtr a |}.

End CompressedArray.
Import CompressedArray.

(** ** The parallel executor (library/threading/local_executor) *)

Module LocalExecutor.

(** Modelled from the spec: the executor is opaque; it is asked to run
    independent blocks and gives no ordering guarantee.  What the model
    keeps of it is how many blocks the range is cut into and the order in
    which the element tasks of those blocks end up being executed. *)
Record TLocalExecutor : Type := {
  BlockCount : nat;
  Interleave : list (list nat) → list nat
}.

(** Modelled from the spec: an executor cuts the range into at least one
    block and runs every task of every block exactly once. *)
Definition fair (e : TLocalExecutor) : Prop :=
  0 < BlockCount e ∧ ∀ blocks, Interleave e blocks ≡ₚ concat blocks.

(** One block, tasks in index order. *)
Definition sequential : TLocalExecutor :=
  {| BlockCount := 1; Interleave := λ blocks, concat blocks |}.

(** Blocks run back to front, and each block back to front. *)
Definition reversed (k : nat) : TLocalExecutor :=
  {| BlockCount := k; Interleave := λ blocks, reverse (concat blocks) |}.

(** Modelled from the spec: the logical range [0, n) cut into blocks of
    [CeilDiv n k] consecutive indices. *)
Definition Blocks (n k : nat) : list (list nat) :=
  let blockSize := CeilDiv n k in
  (λ j, seq (j * blockSize) (blockSize `min` (n - j * blockSize)))
    <$> seq 0 (CeilDiv n blockSize).

End LocalExecutor.
Import LocalExecutor.

(** Modelled from the spec: the body of one extraction task of
    [ParallelExtractValues<T>] (compression.h, not part of the sources at
    hand): decode the key at the physical position of the logical index
    and convert it to [T]. *)
Definition DecodeAt (T : EIntType) (src : TCompressedArray)
    (s : TFeaturesArraySubsetIndexing) (idx : nat) : outcome Z :=
  p ← from_option Ok (Undefined OutOfBounds) (positionOf s idx);
  v ← CompressedArray.Get src p;
  Ok (cast T v).

(** Modelled from the spec: a task stores what it decoded at its own
    logical index of the destination, [dst[idx] = value]. *)
Definition ExtractTask (T : EIntType) (src : TCompressedArray)
    (s : TFeaturesArraySubsetIndexing) (dst : list Z) (idx : nat) : outcome (list Z) :=
  v ← DecodeAt T src s idx;
  Ok (<[idx := v]> dst).

(** Modelled from the spec: [ParallelExtractValues<T>].  The destination
    is resized to the logical size without initialisation ([uninit] is
    what the fresh memory happens to hold); the logical range is cut into
    blocks and the executor runs the tasks of the blocks. *)
Definition ParallelExtractValues (T : EIntType) (subset : TArraySubset TCompressedArray)
    (localExecutor : TLocalExecutor) (uninit : nat → Z) : outcome (list Z) :=
  s ← deref (ArraySubset.SubsetIndexing subset);
  let n := N.to_nat (ArraySubset.Size s) in
  let dst := uninit <$> seq 0 n in
  foldM (ExtractTask T (ArraySubset.Src subset) s) dst
    (Interleave localExecutor (Blocks n (BlockCount localExecutor))).

(** What extraction computes when looked at element by element: every
    logical index decoded on its own, in index order.  The schedules of
    [ParallelExtractValues] are compared against it. *)
Definition DecodedValues (T : EIntType) (src : TCompressedArray)
    (s : TFeaturesArraySubsetIndexing) : outcome (list Z) :=
  let n := N.to_nat (ArraySubset.Size s) in
  if forallb (λ idx, is_ok (DecodeAt T src s idx)) (seq 0 n)
  then Ok ((λ idx, get_or 0%Z (DecodeAt T src s idx)) <$> seq 0 n)
  else Undefined OutOfBounds.

(** ** Quantized data: TCompressedValuesHolderImpl<TBase> *)

(** The interfaces the implementation template is instantiated with.  Each
    fixes a value type, and its constructor forwards [featureId] and [size]
    to [IFeatureValuesHolder] together with its own kind of column. *)
Class TBase : Set := {
  TValueType : EIntType;
  TFeatureValuesType : EFeatureValuesType
}.

Definition TBase_ctor {B : TBase} (featureId size : ui32) : IFeatureValuesHolder :=
  FeatureValuesHolder.ctor TFeatureValuesType featureId size.

Definition IQuantizedFloatValuesHolder : TBase :=
  {| TValueType := Ui8; TFeatureValuesType := QuantizedFloat |}.

Definition IQuantizedCatValuesHolder : TBase :=
  {| TValueType := Ui32; TFeatureValuesType := PerfectHashedCategorical |}.

Module CompressedValuesHolder.

Record TCompressedValuesHolderImpl (B : TBase) : Type := {
  Base : IFeatureValuesHolder;
  SrcData : TCompressedArray;
  SrcDataRawPtr : ptr;
  SubsetIndexing : option TFeaturesArraySubsetIndexing
}.
Arguments Base {B} _.
Arguments SrcData {B} _.
Arguments SrcDataRawPtr {B} _.
Arguments SubsetIndexing {B} _.

Section Impl.
Context {B : TBase}.
#[local] Abbreviation TCompressedValuesHolderImpl := (TCompressedValuesHolderImpl B).

(** Initialisation order is the declaration order of the members, so
    [SrcDataRawPtr] is read from the member [SrcData] after the argument
    has been moved into it.  As in the raw column, the null check of the
    body comes after [subsetIndexing->Size()]. *)
Definition ctor (featureId : ui32) (srcData : TCompressedArray)
    (subsetIndexing : option TFeaturesArraySubsetIndexing)
    : outcome TCompressedValuesHolderImpl :=
  s ← deref subsetIndexing;
  let base := TBase_ctor featureId (ArraySubset.Size s) in
  let SrcData_ := CompressedArray.move srcData in
  let this :=
    {| Base := base;
       SrcData := SrcData_;
       SrcDataRawPtr := GetRawPtr SrcData_;
       SubsetIndexing := subsetIndexing |} in
  _ ← CB_ENSURE (nonnull (SubsetIndexing this)) "subsetIndexing is empty"%string;
  Ok this.

(** The implicitly defined move constructor: memberwise; the pointer
    members are copied, the compressed array is moved. *)
Definition move_ctor (arg : TCompressedValuesHolderImpl) : TCompressedValuesHolderImpl :=
  {| Base := FeatureValuesHolder.move_ctor (Base arg);
     SrcData := CompressedArray.move (SrcData arg);
     SrcDataRawPtr := SrcDataRawPtr arg;
     SubsetIndexing := SubsetIndexing arg |}.

Definition GetType (h : TCompressedValuesHolderImpl) := FeatureValuesHolder.GetType (Base h).
Definition GetSize (h : TCompressedValuesHolderImpl) := FeatureValuesHolder.GetSize (Base h).
Definition GetId (h : TCompressedValuesHolderImpl) := FeatureValuesHolder.GetId (Base h).

Definition GetCompressedData (h : TCompressedValuesHolderImpl)
    : TArraySubset TCompressedArray :=
  {| ArraySubset.Src := SrcData h;
     ArraySubset.SubsetIndexing := SubsetIndexing h |}.

(** The view is built over the cached pointer member. *)
Definition GetArrayData (T : EIntType) (h : TCompressedValuesHolderImpl)
    : outcome (TArraySubset ptr) :=
  _ ← CheckIfCanBeInterpretedAsRawArray T (SrcData h);
  Ok {| ArraySubset.Src := SrcDataRawPtr h;
        ArraySubset.SubsetIndexing := SubsetIndexing h |}.

Definition ExtractValuesT (T : EIntType) (h : TCompressedValuesHolderImpl)
    (localExecutor : TLocalExecutor) (uninit : nat → Z) : outcome (list Z) :=
  ParallelExtractValues T (GetCompressedData h) localExecutor uninit.

Definition ExtractValues (h : TCompressedValuesHolderImpl)
    (localExecutor : TLocalExecutor) (uninit : nat → Z) : outcome (list Z) :=
  ExtractValuesT TValueType h localExecutor uninit.

Definition GetBitsPerKey (h : TCompressedValuesHolderImpl) : Z :=
  CompressedArray.GetBitsPerKey (SrcData h).

(** The invariant tying the cached pointer to the owned array. *)
Definition raw_ptr_cached (h : TCompressedValuesHolderImpl) : Prop :=
  SrcDataRawPtr h = GetRawPtr (SrcData h).

(** The implicitly defined move assignment: memberwise, base first. *)
Definition move_assign (this arg : TCompressedValuesHolderImpl) : TCompressedValuesHolderImpl :=
  {| Base := FeatureValuesHolder.move_assign (Base this) (Base arg);
     SrcData := CompressedArray.move (SrcData arg);
     SrcDataRawPtr := SrcDataRawPtr arg;
     SubsetIndexing := SubsetIndexing arg |}.

(** [operator=(IFeatureValuesHolder&&)] of the base class applied to the
    column through a reference to its base: the base members are
    overwritten, the members of the derived class are left alone. *)
Definition base_move_assign (this : TCompressedValuesHolderImpl)
    (arg : IFeatureValuesHolder) : TCompressedValuesHolderImpl :=
  {| Base := FeatureValuesHolder.move_assign (Base this) arg;
     SrcData := SrcData this;
     SrcDataRawPtr := SrcDataRawPtr this;
     SubsetIndexing := SubsetIndexing this |}.

(** The stored size is the logical length of the bound subset indexing. *)
Definition size_bound (h : TCompressedValuesHolderImpl) : Prop :=
  ∃ s, SubsetIndexing h = Some s ∧ GetSize h = ArraySubset.Size s.

(** What a client can do with a column, and the column it is left with.
    The accessors are [const]; move construction makes the new object the
    column; move assignment overwrites the column with another one; move
    assignment through a reference to the base overwrites its base
    members only. *)
Inductive call : Type :=
| CallGetType
| CallGetSize
| CallGetId
| CallGetCompressedData
| CallGetArrayData (T : EIntType)
| CallExtractValuesT (T : EIntType) (localExecutor : TLocalExecutor) (uninit : nat → Z)
| CallExtractValues (localExecutor : TLocalExecutor) (uninit : nat → Z)
| CallGetBitsPerKey
| CallMove
| CallMoveAssign (arg : TCompressedValuesHolderImpl)
| CallBaseMoveAssign (arg : IFeatureValuesHolder).

Definition after (h : TCompressedValuesHolderImpl) (c : call) : TCompressedValuesHolderImpl :=
  match c with
  | CallGetType | CallGetSize | CallGetId | CallGetCompressedData
  | CallGetArrayData _ | CallExtractValuesT _ _ _ | CallExtractValues _ _
  | CallGetBitsPerKey => h
  | CallMove => move_ctor h
  | CallMoveAssign arg => move_assign h arg
  | CallBaseMoveAssign arg => base_move_assign h arg
  end.

Definition is_assignment (c : call) : bool :=
  match c with
  | CallMoveAssign _ | CallBaseMoveAssign _ => true
  | _ => false
  end.

(** A call that assigns does so as a whole column, from a column with its
    size bound; a call that assigns a whole column does so from a column
    with its raw pointer cached. *)
Definition assigns_bound (c : call) : Prop :=
  match c with
  | CallMoveAssign arg => size_bound arg
  | CallBaseMoveAssign _ => False
  | _ => True
  end.

Definition assigns_cached (c : call) : Prop :=
  match c with CallMoveAssign arg => raw_ptr_cached arg | _ => True end.

End Impl.
End CompressedValuesHolder.

Definition TQuantizedFloatValuesHolder :=
  CompressedValuesHolder.TCompressedValuesHolderImpl IQuantizedFloatValuesHolder.
Definition TQuantizedCatValuesHolder :=
  CompressedValuesHolder.TCompressedValuesHolderImpl IQuantizedCatValuesHolder.

(** ** Balanced accuracy (catboost/libs/metrics/balanced_accuracy.cpp) *)

Module BalancedAccuracy.

(** [double] is IEEE 754 binary64 with rounding to nearest even: 53 bits of
    precision, infinities at exponent 1024. *)
Definition double : Set := spec_float.

Definition prec : Z := 53.
Definition emax : Z := 1024.

(** an [int] literal converted to [double] *)
Definition of_int (z : Z) : double := binary_normalize prec emax z 0 false.

Definition add (x y : double) : double := SFadd prec emax x y.
Definition div (x y : double) : double := SFdiv prec emax x y.
Definition gt (x y : double) : bool := SFltb y x.
Definition eq (x y : double) : bool := SFeqb x y.

(** [TMetricHolder] as the function uses it: a vector of statistics read
    with the unchecked [operator[]]. *)
Record TMetricHolder : Set := { Stats : list double }.

(** [double CalcBalancedAccuracyMetric(const TMetricHolder& error)], with
    the reads in the order the expressions make them; [&&] evaluates its
    right operand only when the left one holds. *)
Definition CalcBalancedAccuracyMetric (error : TMetricHolder) : outcome double :=
  c1 ← index (Stats error) 1;
  sensitivity ←
    (if gt c1 (of_int 0)
     then s0 ← index (Stats error) 0; s1 ← index (Stats error) 1; Ok (div s0 s1)
     else Ok (of_int 0));
  c3 ← index (Stats error) 3;
  specificity ←
    (if gt c3 (of_int 0)
     then s2 ← index (Stats error) 2; s3 ← index (Stats error) 3; Ok (div s2 s3)
     else Ok (of_int 0));
  s0 ← index (Stats error) 0;
  s1 ← index (Stats error) 1;
  perfect ←
    (if eq s0 s1
     then s2 ← index (Stats error) 2; s3 ← index (Stats error) 3; Ok (eq s2 s3)
     else Ok false);
  if perfect : bool then Ok (of_int 1)
  else Ok (div (add sensitivity specificity) (of_int 2)).

End BalancedAccuracy.

(** * Properties *)

(** ** Outcomes *)

Section OutcomeFacts.
Context {S A : Type}.
Implicit Types (body : S → A → outcome S) (l : list A).

Lemma foldM_app body s l1 l2 :
  foldM body s (l1 ++ l2) = (s' ← foldM body s l1; foldM body s' l2).
Proof.
  revert s. induction l1 as [|a l1 IH]; intros s; simpl; [done|].
  destruct (body s a); simpl; auto.
Qed.

(** A loop whose body never fails is a left fold. *)
Lemma foldM_total body (f : S → A → S) s l :
  (∀ s a, a ∈ l → body s a = Ok (f s a)) →
  foldM body s l = Ok (foldl f s l).
Proof.
  revert s. induction l as [|a l IH]; intros s Hb; simpl; [done|].
  rewrite Hb by left. simpl. apply IH. intros ???. apply Hb. by right.
Qed.
End OutcomeFacts.

(** ** Subset indexing *)

Lemma Size_length s : N.to_nat (ArraySubset.Size s) = length (positions s).
Proof. unfold ArraySubset.Size. lia. Qed.

Lemma positionOf_lt s i :
  (N.of_nat i < ArraySubset.Size s)%N → ∃ p, positionOf s i = Some p.
Proof.
  intros Hi. apply lookup_lt_is_Some_2. rewrite <- Size_length. lia.
Qed.

Lemma positionOf_full n i : i < n → positionOf (TFullSubset n) i = Some i.
Proof. intros Hi. unfold positionOf. simpl. by rewrite lookup_seq_lt. Qed.

(** ** Construction *)

Section Construction.
Import ArrayValuesHolder CompressedValuesHolder.

(** With a subset indexing at hand both constructors go through, whatever
    the source data and whatever the subset indexing look like. *)
Lemma raw_ctor_nonnull {T} TType featureId (A : list T) s :
  ArrayValuesHolder.ctor TType featureId A (Some s) =
  Ok {| ArrayValuesHolder.Base := FeatureValuesHolder.ctor TType featureId (ArraySubset.Size s);
        ArrayValuesHolder.SrcData := A;
        ArrayValuesHolder.SubsetIndexing := Some s |}.
Proof. reflexivity. Qed.

Lemma compressed_ctor_nonnull {B : TBase} featureId a s :
  CompressedValuesHolder.ctor featureId a (Some s) =
  Ok {| CompressedValuesHolder.Base := TBase_ctor featureId (ArraySubset.Size s);
        CompressedValuesHolder.SrcData := CompressedArray.move a;
        CompressedValuesHolder.SrcDataRawPtr := GetRawPtr (CompressedArray.move a);
        CompressedValuesHolder.SubsetIndexing := Some s |}.
Proof. reflexivity. Qed.







Lemma move_keeps_raw_ptr a : GetRawPtr (CompressedArray.move a) = GetRawPtr a.
Proof. reflexivity. Qed.

Lemma after_keeps_cached {B : TBase} (h : TCompressedValuesHolderImpl B) c :
  raw_ptr_cached h → CompressedValuesHolder.assigns_cached c →
  raw_ptr_cached (CompressedValuesHolder.after h c).
Proof.
  unfold raw_ptr_cached. intros Hh Hc.
  destruct c; simpl; rewrite ?move_keeps_raw_ptr; first [exact Hh | exact Hc].
Qed.

Lemma compressed_after_cached {B : TBase} (h : TCompressedValuesHolderImpl B) calls :
  raw_ptr_cached h → Forall CompressedValuesHolder.assigns_cached calls →
  raw_ptr_cached (foldl CompressedValuesHolder.after h calls).
Proof.
  intros Hh Hcalls. revert h Hh.
  induction Hcalls as [|c calls Hc _ IH]; intros h Hh; simpl; [done|].
  by apply IH, after_keeps_cached.
Qed.

End Construction.

(** ** The raw column *)

(** C1: the view returned by [GetArrayData] of a raw column built from the
    array [A] and a subset indexing of logical length [N] reads, at every
    logical index [i < N], the element of [A] at the physical position the
    subset indexing maps [i] to; with the identity subset indexing it reads
    [A[i]]. *)
Theorem raw_values_follow_subset {T} TType featureId (A : list T) s h :
  ArrayValuesHolder.ctor TType featureId A (Some s) = Ok h →
  (∀ i, (N.of_nat i < ArraySubset.Size s)%N →
     ∃ p, positionOf s i = Some p ∧
          at_ (ArrayValuesHolder.GetArrayData h) i = index A p) ∧
  (∀ n i, s = TFullSubset n → i < n →
     at_ (ArrayValuesHolder.GetArrayData h) i = index A i).
Proof.
  rewrite raw_ctor_nonnull. intros [= <-]. split.
  - intros i Hi. destruct (positionOf_lt s i Hi) as [p Hp].
    exists p. split; [done|]. unfold at_. simpl. by rewrite Hp.
  - intros n i -> Hi. unfold at_. simpl. by rewrite positionOf_full.
Qed.

Lemma raw_values_follow_subset_witness :
  (∃ h, ArrayValuesHolder.ctor Float 7%N [10; 20; 30]%Z (Some (TIndexedSubset [2; 0; 1])) = Ok h ∧
        ∃ p, positionOf (TIndexedSubset [2; 0; 1]) 0 = Some p ∧
             at_ (ArrayValuesHolder.GetArrayData h) 0 = index [10; 20; 30]%Z p) ∧
  (∃ h, ArrayValuesHolder.ctor Float 7%N [10; 20; 30]%Z (Some (TFullSubset 3)) = Ok h ∧
        at_ (ArrayValuesHolder.GetArrayData h) 2 = index [10; 20; 30]%Z 2).
Proof.
  split; (eexists; split; [reflexivity|]).
  - refine (proj1 (raw_values_follow_subset Float 7%N [10; 20; 30]%Z
                     (TIndexedSubset [2; 0; 1]) _ eq_refl) 0 _).
    vm_compute. reflexivity.
  - refine (proj2 (raw_values_follow_subset Float 7%N [10; 20; 30]%Z
                     (TFullSubset 3) _ eq_refl) 3 2 eq_refl _).
    lia.
Defined.

(** C10: the constructor of the raw column never compares the positions of
    the subset indexing with the length of the source array: construction
    succeeds for every array and every subset indexing, and a position past
    the end of the array shows only when the returned view is read there. *)
Theorem raw_ctor_checks_no_bounds {T} TType featureId (A : list T) s :
  ∃ h, ArrayValuesHolder.ctor TType featureId A (Some s) = Ok h ∧
       ∀ i p, positionOf s i = Some p → length A ≤ p →
              at_ (ArrayValuesHolder.GetArrayData h) i = Undefined OutOfBounds.
Proof.
  eexists. split; [apply raw_ctor_nonnull|].
  intros i p Hp Hlen. unfold at_, index. simpl. rewrite Hp. simpl.
  by rewrite lookup_ge_None_2.
Qed.

Lemma raw_ctor_checks_no_bounds_witness :
  ∃ h, ArrayValuesHolder.ctor HashedCategorical 3%N [11; 12]%N (Some (TIndexedSubset [1; 5])) = Ok h ∧
       at_ (ArrayValuesHolder.GetArrayData h) 0 = Ok 12%N ∧
       at_ (ArrayValuesHolder.GetArrayData h) 1 = Undefined OutOfBounds.
Proof.
  destruct (raw_ctor_checks_no_bounds HashedCategorical 3%N [11; 12]%N
              (TIndexedSubset [1; 5])) as [h [Hh Hoob]].
  exists h. split; [exact Hh|]. split.
  - rewrite raw_ctor_nonnull in Hh. injection Hh as <-. reflexivity.
  - apply (Hoob 1 5); [reflexivity | simpl; lia].
Defined.

(** ** Construction preconditions *)

(** C5: with a null subset indexing both constructors dereference the null
    pointer in their initialiser list ([subsetIndexing->Size()]); the
    CB_ENSURE of the constructor body, which would signal the precondition
    violation, is never reached. *)
Theorem null_subset_is_dereferenced :
  (∀ T TType featureId (A : list T),
     ArrayValuesHolder.ctor TType featureId A None = Undefined NullDereference) ∧
  (∀ (B : TBase) featureId a,
     CompressedValuesHolder.ctor featureId a None = Undefined NullDereference).
Proof. split; reflexivity. Qed.

(** C6, as stated, fails: a raw column and a compressed column are both
    constructed over a subset indexing of logical length zero. *)
Lemma empty_subset_is_accepted :
  ArraySubset.Size (TFullSubset 0) = 0%N ∧
  (∃ h, ArrayValuesHolder.ctor Float 1%N [5; 6]%Z (Some (TFullSubset 0)) = Ok h) ∧
  (∃ h, CompressedValuesHolder.ctor (B := IQuantizedFloatValuesHolder) 1%N
          (Pack 2 [1; 2; 3; 0]%Z 4096%N) (Some (TFullSubset 0)) = Ok h).
Proof. split; [reflexivity|]. split; eexists; reflexivity. Qed.

(** C6, amended: construction does not require a non-empty size.  Over a
    subset indexing that is present and has logical length zero both
    constructors succeed, and the column they build reports size 0. *)
Theorem empty_subset_builds_empty_column s :
  ArraySubset.Size s = 0%N →
  (∀ T TType featureId (A : list T),
     ∃ h, ArrayValuesHolder.ctor TType featureId A (Some s) = Ok h ∧
          ArrayValuesHolder.GetSize h = 0%N) ∧
  (∀ (B : TBase) featureId a,
     ∃ h, CompressedValuesHolder.ctor featureId a (Some s) = Ok h ∧
          CompressedValuesHolder.GetSize h = 0%N).
Proof.
  intros Hs. split.
  - intros. eexists. split; [apply raw_ctor_nonnull|]. exact Hs.
  - intros. eexists. split; [apply compressed_ctor_nonnull|]. exact Hs.
Qed.

Lemma empty_subset_builds_empty_column_witness :
  (∃ h, ArrayValuesHolder.ctor HashedCategorical 4%N [17; 18]%N (Some (TIndexedSubset [])) = Ok h ∧
        ArrayValuesHolder.GetSize h = 0%N) ∧
  (∃ h, CompressedValuesHolder.ctor (B := IQuantizedCatValuesHolder) 4%N
          (Pack 4 [9; 3]%Z 4096%N) (Some (TIndexedSubset [])) = Ok h ∧
        CompressedValuesHolder.GetSize h = 0%N).
Proof.
  split.
  - exact (proj1 (empty_subset_builds_empty_column (TIndexedSubset []) eq_refl)
             ui32 HashedCategorical 4%N [17; 18]%N).
  - exact (proj2 (empty_subset_builds_empty_column (TIndexedSubset []) eq_refl)
             IQuantizedCatValuesHolder 4%N (Pack 4 [9; 3]%Z 4096%N)).
Defined.

(** ** Invariants of a constructed column *)




(** C9: in a compressed column the cached [SrcDataRawPtr] is the raw
    pointer of the owned compressed array.  The constructor establishes
    this, every call on the column keeps it (move construction, and move
    assignment of a column that has it), and the view [GetArrayData]
    returns is built over the cached member. *)
Theorem raw_ptr_is_cached {B : TBase} :
  (∀ featureId a s h,
     CompressedValuesHolder.ctor featureId a (Some s) = Ok h →
     ∀ calls, Forall CompressedValuesHolder.assigns_cached calls →
       CompressedValuesHolder.raw_ptr_cached (foldl CompressedValuesHolder.after h calls)) ∧
  (∀ (h : CompressedValuesHolder.TCompressedValuesHolderImpl B) T view,
     CompressedValuesHolder.GetArrayData T h = Ok view →
     ArraySubset.Src view = CompressedValuesHolder.SrcDataRawPtr h).
Proof.
  split.
  - intros featureId a s h. rewrite compressed_ctor_nonnull. intros [= <-] calls Hcalls.
    by apply compressed_after_cached.
  - intros h T view. unfold CompressedValuesHolder.GetArrayData.
    destruct (CheckIfCanBeInterpretedAsRawArray T _); simpl; [|done..].
    by intros [= <-].
Qed.

Lemma raw_ptr_is_cached_witness :
  ∃ h, CompressedValuesHolder.ctor (B := IQuantizedFloatValuesHolder) 2%N
         (Pack 8 [200; 7; 31]%Z 4096%N) (Some (TFullSubset 3)) = Ok h ∧
       CompressedValuesHolder.raw_ptr_cached
         (foldl CompressedValuesHolder.after h
            [CompressedValuesHolder.CallMove; CompressedValuesHolder.CallGetArrayData Ui8]) ∧
       ∃ view, CompressedValuesHolder.GetArrayData Ui8 h = Ok view ∧
               ArraySubset.Src view = 4096%N.
Proof.
  eexists. split; [reflexivity|]. split.
  - refine (proj1 (raw_ptr_is_cached (B := IQuantizedFloatValuesHolder))
              2%N (Pack 8 [200; 7; 31]%Z 4096%N) (TFullSubset 3) _ eq_refl _ _).
    repeat constructor.
  - lazymatch goal with
    | |- ∃ view, CompressedValuesHolder.GetArrayData _ ?h = _ ∧ _ =>
        eexists; split; [reflexivity|];
        exact (proj2 (raw_ptr_is_cached (B := IQuantizedFloatValuesHolder)) h Ui8 _ eq_refl)
    end.
Defined.

(** ** Raw-pointer reinterpretation *)

(** C4: [GetArrayData<T>] on a compressed column whose bits-per-key differ
    from the width of [T] fails with the error of the width check and
    returns no view; when the widths are equal it returns the view made of
    the cached raw pointer and the subset indexing of the column, with no
    copy of the packed buffer. *)
Theorem GetArrayData_checks_width {B : TBase} featureId a s
    (h : CompressedValuesHolder.TCompressedValuesHolderImpl B) (T : EIntType) :
  CompressedValuesHolder.ctor featureId a (Some s) = Ok h →
  CompressedValuesHolder.GetBitsPerKey h = GetBitsPerKey a ∧
  (GetBitsPerKey a ≠ bits T →
     ∃ msg, CompressedValuesHolder.GetArrayData T h = Throw msg) ∧
  (GetBitsPerKey a = bits T →
     CompressedValuesHolder.GetArrayData T h =
     Ok {| ArraySubset.Src := GetRawPtr a; ArraySubset.SubsetIndexing := Some s |}).
Proof.
  rewrite compressed_ctor_nonnull. intros [= <-].
  unfold CompressedValuesHolder.GetArrayData, CheckIfCanBeInterpretedAsRawArray.
  simpl. split; [reflexivity|]. split; intros Hb.
  - rewrite bool_decide_eq_false_2 by exact Hb. simpl. eauto.
  - rewrite bool_decide_eq_true_2 by exact Hb. reflexivity.
Qed.

Lemma GetArrayData_checks_width_witness :
  ∃ h, CompressedValuesHolder.ctor (B := IQuantizedFloatValuesHolder) 2%N
         (Pack 8 [200; 7; 31]%Z 4096%N) (Some (TFullSubset 3)) = Ok h ∧
       (∃ msg, CompressedValuesHolder.GetArrayData Ui32 h = Throw msg) ∧
       CompressedValuesHolder.GetArrayData Ui8 h =
       Ok {| ArraySubset.Src := 4096%N; ArraySubset.SubsetIndexing := Some (TFullSubset 3) |}.
Proof.
  eexists. split; [reflexivity|].
  split.
  - refine (proj1 (proj2 (GetArrayData_checks_width (B := IQuantizedFloatValuesHolder)
                            2%N (Pack 8 [200; 7; 31]%Z 4096%N) (TFullSubset 3) _ Ui32 eq_refl)) _).
    vm_compute. discriminate.
  - refine (proj2 (proj2 (GetArrayData_checks_width (B := IQuantizedFloatValuesHolder)
                            2%N (Pack 8 [200; 7; 31]%Z 4096%N) (TFullSubset 3) _ Ui8 eq_refl)) _).
    reflexivity.
Defined.

(** ** Bit packing *)

Section Packing.
Local Open Scope Z_scope.

Lemma fits_testbit_high b v n : 0 ≤ b → fits b v → b ≤ n → Z.testbit v n = false.
Proof.
  intros Hb Hv Hn. rewrite <- (Z.mod_small v (2 ^ b)) by exact Hv.
  apply Z.mod_pow2_bits_high. lia.
Qed.

Lemma fits_land_mask b v : 0 ≤ b → fits b v → Z.land v (Mask b) = v.
Proof.
  intros Hb Hv. unfold Mask. rewrite Z.land_ones by exact Hb.
  apply Z.mod_small, Hv.
Qed.

(** The lowest key of a word. *)
Lemma pack_word_low b k keys :
  0 < b → fits b k →
  Z.land (pack_word b (k :: keys)) (Mask b) = k.
Proof.
  intros Hb Hk. simpl. rewrite (fits_land_mask b k); [|lia|exact Hk].
  apply Z.bits_inj'. intros n Hn. unfold Mask.
  rewrite Z.land_spec, Z.lor_spec, Z.shiftl_spec by exact Hn.
  destruct (Z.lt_ge_cases n b) as [Hlt|Hge].
  - rewrite Z.ones_spec_low by lia. rewrite (Z.testbit_neg_r _ (n - b)) by lia.
    by rewrite orb_false_r, andb_true_r.
  - rewrite Z.ones_spec_high by lia.
    rewrite (fits_testbit_high b k n); [|lia|exact Hk|lia]. by rewrite andb_false_r.
Qed.

(** Dropping the lowest key of a word. *)
Lemma pack_word_shift b k keys :
  0 < b → Z.shiftr (pack_word b (k :: keys)) b = pack_word b keys.
Proof.
  intros Hb. simpl. apply Z.bits_inj'. intros n Hn. unfold Mask.
  rewrite Z.shiftr_spec, Z.lor_spec, Z.land_spec, Z.shiftl_spec by lia.
  rewrite Z.ones_spec_high by lia. rewrite andb_false_r. simpl.
  f_equal. lia.
Qed.

Lemma pack_word_get b keys (j : nat) v :
  0 < b → Forall (fits b) keys → keys !! j = Some v →
  Z.land (Z.shiftr (pack_word b keys) (Z.of_nat j * b)) (Mask b) = v.
Proof.
  intros Hb Hkeys. revert j. induction Hkeys as [|k keys Hk Hkeys IH]; intros j Hj.
  - done.
  - destruct j as [|j].
    + injection Hj as <-. rewrite Z.mul_0_l, Z.shiftr_0_r. by apply pack_word_low.
    + replace (Z.of_nat (S j) * b) with (b + Z.of_nat j * b) by lia.
      rewrite <- Z.shiftr_shiftr by lia. rewrite pack_word_shift by exact Hb.
      by apply IH.
Qed.

Lemma fits_of_testbit b v :
  0 ≤ b → 0 ≤ v → (∀ n, b ≤ n → Z.testbit v n = false) → fits b v.
Proof.
  intros Hb Hv Hhigh. split; [exact Hv|].
  assert (Hmod : v = v `mod` 2 ^ b).
  { apply Z.bits_inj'. intros n Hn. destruct (Z.lt_ge_cases n b).
    - by rewrite Z.mod_pow2_bits_low.
    - rewrite Z.mod_pow2_bits_high by lia. by apply Hhigh. }
  rewrite Hmod. apply Z.mod_pos_bound, Z.pow_pos_nonneg; lia.
Qed.

(** A word holds no more than the bits of its keys. *)
Lemma pack_word_bound b keys :
  0 < b → fits (Z.of_nat (length keys) * b) (pack_word b keys).
Proof.
  intros Hb. induction keys as [|k keys IH].
  - unfold fits. simpl. lia.
  - apply fits_of_testbit; [lia| |].
    + simpl. apply Z.lor_nonneg. split.
      * apply Z.land_nonneg. right. unfold Mask. rewrite Z.ones_equiv.
        pose proof (Z.pow_pos_nonneg 2 b). lia.
      * apply Z.shiftl_nonneg, IH.
    + intros n Hn. simpl in Hn |- *. unfold Mask.
      rewrite Z.lor_spec, Z.land_spec, Z.shiftl_spec by lia.
      rewrite Z.ones_spec_high by lia. rewrite andb_false_r. simpl.
      apply (fits_testbit_high (Z.of_nat (length keys) * b)); [lia|exact IH|lia].
Qed.

End Packing.

Lemma EntriesPerType_pos b : (1 ≤ b ≤ 64)%Z → 0 < EntriesPerType b.
Proof.
  intros Hb. unfold EntriesPerType.
  assert (0 < 64 `div` b)%Z by (apply Z.div_str_pos; lia). lia.
Qed.

Lemma EntriesPerType_bits b :
  (1 ≤ b ≤ 64)%Z → (Z.of_nat (EntriesPerType b) * b ≤ 64)%Z.
Proof.
  intros Hb. unfold EntriesPerType.
  assert (0 < 64 `div` b)%Z by (apply Z.div_str_pos; lia).
  rewrite Z2Nat.id by lia. rewrite Z.mul_comm. apply Z.mul_div_le. lia.
Qed.

Lemma CeilDiv_covers n e : 0 < e → n ≤ CeilDiv n e * e.
Proof.
  intros He. unfold CeilDiv.
  pose proof (Nat.div_mod_eq (n + e - 1) e) as Hdm.
  pose proof (Nat.mod_upper_bound (n + e - 1) e) as Hr. nia.
Qed.

Lemma div_lt_CeilDiv p n e : 0 < e → p < n → p `div` e < CeilDiv n e.
Proof.
  intros He Hp. apply Nat.Div0.div_lt_upper_bound.
  pose proof (CeilDiv_covers n e He). nia.
Qed.

Lemma CompressVector_lookup b data w :
  w < CeilDiv (length data) (EntriesPerType b) →
  CompressVector b data !! w =
  Some (pack_word b (take (EntriesPerType b) (drop (w * EntriesPerType b) data))).
Proof.
  intros Hw. unfold CompressVector. rewrite list_lookup_fmap.
  by rewrite lookup_seq_lt.
Qed.

(** The storage words of a packed sequence are 64-bit words. *)
Lemma CompressVector_words b data w :
  (1 ≤ b ≤ 64)%Z → w ∈ CompressVector b data → fits 64 w.
Proof.
  intros Hb Hin. unfold CompressVector in Hin.
  apply list_elem_of_fmap in Hin as [i [-> _]].
  set (keys := take _ _).
  pose proof (pack_word_bound b keys ltac:(lia)) as [Hlo Hhi].
  split; [exact Hlo|].
  eapply Z.lt_le_trans; [exact Hhi|].
  apply Z.pow_le_mono_r; [lia|].
  pose proof (EntriesPerType_bits b Hb).
  assert (length keys ≤ EntriesPerType b) by (subst keys; rewrite length_take; lia).
  nia.
Qed.

(** Decoding a position of a packed sequence gives back the key there. *)
Lemma Get_Pack b data buffer p v :
  (1 ≤ b ≤ 64)%Z → Forall (fits b) data → data !! p = Some v →
  CompressedArray.Get (Pack b data buffer) p = Ok v.
Proof.
  intros Hb Hdata Hp. unfold CompressedArray.Get, index. simpl.
  pose proof (EntriesPerType_pos b Hb) as He.
  pose proof (lookup_lt_Some _ _ _ Hp) as Hlt.
  rewrite CompressVector_lookup by (by apply div_lt_CeilDiv).
  simpl. f_equal. apply pack_word_get; [lia| |].
  - by apply Forall_take, Forall_drop.
  - rewrite lookup_take_lt by (apply Nat.mod_upper_bound; lia).
    rewrite lookup_drop. rewrite <- Hp. f_equal.
    pose proof (Nat.div_mod_eq p (EntriesPerType b)). lia.
Qed.

(** ** Blocks and schedules *)

Lemma forallb_false {A} (f : A → bool) (l : list A) :
  forallb f l = false → ∃ x, x ∈ l ∧ f x = false.
Proof.
  induction l as [|a l IH]; simpl; [done|].
  destruct (f a) eqn:Ha; simpl.
  - intros [x [Hin Hx]]%IH. exists x. split; [by right | done].
  - intros _. exists a. split; [by left | done].
Qed.

Lemma chunks_concat blockSize n count :
  concat ((λ j, seq (j * blockSize) (blockSize `min` (n - j * blockSize))) <$> seq 0 count)
  = seq 0 (n `min` (count * blockSize)).
Proof.
  induction count as [|count IH]; [by rewrite Nat.min_0_r|].
  rewrite seq_S, fmap_app, concat_app, IH. simpl. rewrite app_nil_r.
  destruct (Nat.le_gt_cases n (count * blockSize)) as [Hle|Hgt].
  - replace (n - count * blockSize) with 0 by lia.
    rewrite Nat.min_0_r. simpl. rewrite app_nil_r. f_equal. lia.
  - replace (n `min` (count * blockSize)) with (count * blockSize) by lia.
    replace (n `min` (blockSize + count * blockSize))
      with (count * blockSize + blockSize `min` (n - count * blockSize)) by lia.
    by rewrite seq_app.
Qed.

(** The blocks cover the logical range, each index once and in order. *)
Lemma Blocks_concat n k : 0 < k → concat (Blocks n k) = seq 0 n.
Proof.
  intros Hk. unfold Blocks. rewrite chunks_concat. f_equal.
  pose proof (CeilDiv_covers n k Hk) as Hcover.
  destruct (Nat.eq_dec n 0) as [->|Hn]; [done|].
  assert (0 < CeilDiv n k) as Hsize by nia.
  pose proof (CeilDiv_covers n (CeilDiv n k) Hsize). lia.
Qed.

Lemma fair_schedule e n :
  fair e → Interleave e (Blocks n (BlockCount e)) ≡ₚ seq 0 n.
Proof. intros [Hk Hperm]. rewrite Hperm. by rewrite Blocks_concat. Qed.

Lemma sequential_fair : fair sequential.
Proof. split; [simpl; lia | done]. Qed.

Lemma reversed_fair k : 0 < k → fair (reversed k).
Proof. intros Hk. split; [done|]. intros blocks. simpl. apply reverse_Permutation. Qed.

(** ** Extraction *)

Section Extraction.
Context (T : EIntType) (src : TCompressedArray) (s : TFeaturesArraySubsetIndexing).

#[local] Abbreviation decoded := (λ idx, get_or 0%Z (DecodeAt T src s idx)).
#[local] Abbreviation store := (λ (dst : list Z) idx, <[idx := decoded idx]> dst).

(** Decoding fails in one way only. *)
Lemma DecodeAt_cases idx :
  DecodeAt T src s idx = Ok (decoded idx) ∨
  DecodeAt T src s idx = Undefined OutOfBounds.
Proof.
  unfold DecodeAt, CompressedArray.Get, index.
  destruct (positionOf s idx) as [p|]; simpl; [|by right].
  destruct (Storage src !! _); simpl; [by left | by right].
Qed.

Lemma ExtractTask_ok dst idx v :
  DecodeAt T src s idx = Ok v → ExtractTask T src s dst idx = Ok (<[idx := v]> dst).
Proof. intros H. unfold ExtractTask. by rewrite H. Qed.

Lemma ExtractTask_fail dst idx f :
  DecodeAt T src s idx = Undefined f → ExtractTask T src s dst idx = Undefined f.
Proof. intros H. unfold ExtractTask. by rewrite H. Qed.

Lemma tasks_fail dst tasks idx :
  idx ∈ tasks → DecodeAt T src s idx = Undefined OutOfBounds →
  foldM (ExtractTask T src s) dst tasks = Undefined OutOfBounds.
Proof.
  intros Hin Hfail. revert dst.
  induction tasks as [|i tasks IH]; intros dst; [by apply elem_of_nil in Hin|].
  simpl. destruct (DecodeAt_cases i) as [Hi|Hi].
  - rewrite (ExtractTask_ok _ _ _ Hi). simpl.
    apply elem_of_cons in Hin as [->|Hin]; [congruence|]. by apply IH.
  - by rewrite (ExtractTask_fail _ _ _ Hi).
Qed.

Lemma tasks_succeed dst tasks :
  (∀ idx, idx ∈ tasks → is_ok (DecodeAt T src s idx) = true) →
  foldM (ExtractTask T src s) dst tasks = Ok (foldl store dst tasks).
Proof.
  intros Hok. apply foldM_total. intros d idx Hin.
  specialize (Hok idx Hin).
  destruct (DecodeAt_cases idx) as [Hi|Hi]; [by apply ExtractTask_ok|].
  rewrite Hi in Hok. done.
Qed.

Lemma stores_length dst tasks : length (foldl store dst tasks) = length dst.
Proof.
  revert dst. induction tasks as [|i tasks IH]; intros dst; simpl; [done|].
  by rewrite IH, length_insert.
Qed.

(** A slot that some task writes ends up holding the decoded value of its
    own index, whatever the order of the tasks and whatever it held before. *)
Lemma stores_lookup dst tasks j :
  j ∈ tasks → j < length dst → foldl store dst tasks !! j = Some (decoded j).
Proof.
  revert dst. induction tasks as [|i tasks IH] using rev_ind; intros dst Hin Hj.
  - by apply elem_of_nil in Hin.
  - rewrite foldl_app. simpl. destruct (decide (i = j)) as [->|Hne].
    + apply list_lookup_insert_eq. by rewrite stores_length.
    + rewrite list_lookup_insert_ne by done. apply IH; [|done].
      apply elem_of_app in Hin as [Hin|Hin]; [done|].
      apply list_elem_of_singleton in Hin. congruence.
Qed.

Lemma stores_all dst tasks n :
  tasks ≡ₚ seq 0 n → length dst = n →
  foldl store dst tasks = decoded <$> seq 0 n.
Proof.
  intros Hperm Hlen. apply list_eq. intros j.
  destruct (Nat.lt_ge_cases j n) as [Hj|Hj].
  - rewrite stores_lookup; [| |lia].
    + by rewrite list_lookup_fmap, lookup_seq_lt.
    + rewrite Hperm. apply elem_of_seq. lia.
  - rewrite !lookup_ge_None_2; [done| |].
    + by rewrite length_fmap, length_seq.
    + rewrite stores_length. lia.
Qed.

(** Any schedule that runs every task once computes [DecodedValues]. *)
Lemma schedule_computes_DecodedValues dst tasks :
  tasks ≡ₚ seq 0 (N.to_nat (ArraySubset.Size s)) →
  length dst = N.to_nat (ArraySubset.Size s) →
  foldM (ExtractTask T src s) dst tasks = DecodedValues T src s.
Proof.
  intros Hperm Hlen. unfold DecodedValues.
  destruct (forallb _ _) eqn:Hall.
  - rewrite forallb_forall in Hall. rewrite tasks_succeed.
    + f_equal. by apply stores_all.
    + intros idx Hin. apply Hall. apply list_elem_of_In. by rewrite <- Hperm.
  - apply forallb_false in Hall as [idx [Hin Hbad]].
    apply (tasks_fail _ _ idx); [by rewrite Hperm|].
    destruct (DecodeAt_cases idx) as [Hi|Hi]; [|done].
    rewrite Hi in Hbad. done.
Qed.

Lemma ParallelExtractValues_fair e uninit :
  fair e →
  ParallelExtractValues T {| Src := src; ArraySubset.SubsetIndexing := Some s |} e uninit
  = DecodedValues T src s.
Proof.
  intros He. unfold ParallelExtractValues. simpl.
  apply schedule_computes_DecodedValues.
  - by apply fair_schedule.
  - by rewrite length_fmap, length_seq.
Qed.

End Extraction.

(** ** Extraction of packed sequences *)

Section PackedExtraction.
Context (T : EIntType) (b : Z) (data : list Z) (buffer : ptr).
Context (s : TFeaturesArraySubsetIndexing).
Hypothesis width : (1 ≤ b ≤ 64)%Z.
Hypothesis keys_fit : Forall (fits b) data.
Hypothesis wide_enough : (b ≤ bits T)%Z.
Hypothesis in_bounds : Forall (λ p, p < length data) (positions s).

Lemma cast_fits v : fits b v → cast T v = v.
Proof.
  intros [Hlo Hhi]. unfold cast. apply Z.mod_small. split; [done|].
  eapply Z.lt_le_trans; [exact Hhi|]. apply Z.pow_le_mono_r; lia.
Qed.

Lemma DecodeAt_Pack idx p :
  positionOf s idx = Some p →
  ∃ v, data !! p = Some v ∧ DecodeAt T (Pack b data buffer) s idx = Ok v.
Proof.
  intros Hp.
  assert (p < length data) as Hlt.
  { rewrite Forall_forall in in_bounds. apply in_bounds.
    apply list_elem_of_lookup. by exists idx. }
  destruct (lookup_lt_is_Some_2 _ _ Hlt) as [v Hv].
  exists v. split; [done|]. unfold DecodeAt. rewrite Hp. simpl.
  rewrite (Get_Pack b data buffer p v) by done. simpl. f_equal.
  apply cast_fits. rewrite Forall_forall in keys_fit. apply keys_fit.
  apply list_elem_of_lookup. by exists p.
Qed.

Lemma DecodedValues_Pack :
  ∃ res, DecodedValues T (Pack b data buffer) s = Ok res ∧
         length res = length (positions s) ∧
         ∀ idx p, positionOf s idx = Some p → res !! idx = data !! p.
Proof.
  unfold DecodedValues. rewrite Size_length.
  rewrite (proj2 (forallb_forall _ _)).
  - eexists. split; [reflexivity|]. split.
    + by rewrite length_fmap, length_seq.
    + intros idx p Hp. pose proof (lookup_lt_Some _ _ _ Hp) as Hidx.
      rewrite list_lookup_fmap, lookup_seq_lt by done. simpl.
      destruct (DecodeAt_Pack idx p Hp) as [v [-> ->]]. done.
  - intros idx [_ Hidx]%in_seq.
    destruct (lookup_lt_is_Some_2 (positions s) idx) as [p Hp]; [lia|].
    destruct (DecodeAt_Pack idx p Hp) as [v [_ ->]]. done.
Qed.

End PackedExtraction.

Lemma ExtractValuesT_fair {B : TBase} featureId a s h T e uninit :
  CompressedValuesHolder.ctor featureId a (Some s) = Ok h → fair e →
  CompressedValuesHolder.ExtractValuesT T h e uninit = DecodedValues T a s.
Proof.
  rewrite compressed_ctor_nonnull. intros [= <-] He.
  unfold CompressedValuesHolder.ExtractValuesT, CompressedValuesHolder.GetCompressedData.
  simpl. rewrite ParallelExtractValues_fair by done. by destruct a.
Qed.

(** C2: full extraction from a compressed column built over a sequence
    packed at [b] bits per key returns an array whose length is [GetSize]
    and whose element at every logical index is the key that was packed at
    the physical position of that index, for every executor: through
    [ExtractValuesT<T>] for every target type [T] at least [b] bits wide,
    and through [ExtractValues] when the value type of the interface is at
    least [b] bits wide. *)
Theorem extraction_decodes_packed_keys
    {B : TBase} featureId b data buffer s h T e uninit :
  (1 ≤ b ≤ 64)%Z → Forall (fits b) data → (b ≤ bits T)%Z →
  Forall (λ p, p < length data) (positions s) → fair e →
  CompressedValuesHolder.ctor featureId (Pack b data buffer) (Some s) = Ok h →
  (∃ res, CompressedValuesHolder.ExtractValuesT T h e uninit = Ok res ∧
          N.of_nat (length res) = CompressedValuesHolder.GetSize h ∧
          ∀ i p, positionOf s i = Some p → res !! i = data !! p) ∧
  ((b ≤ bits TValueType)%Z →
   ∃ res, CompressedValuesHolder.ExtractValues h e uninit = Ok res ∧
          N.of_nat (length res) = CompressedValuesHolder.GetSize h ∧
          ∀ i p, positionOf s i = Some p → res !! i = data !! p).
Proof.
  intros Hb Hfit HT Hin He Hh.
  assert (∀ T', (b ≤ bits T')%Z →
            ∃ res, CompressedValuesHolder.ExtractValuesT T' h e uninit = Ok res ∧
                   N.of_nat (length res) = CompressedValuesHolder.GetSize h ∧
                   ∀ i p, positionOf s i = Some p → res !! i = data !! p) as Hall.
  { intros T' HT'. rewrite (ExtractValuesT_fair _ _ _ _ _ _ _ Hh He).
    destruct (DecodedValues_Pack T' b data buffer s Hb Hfit HT' Hin)
      as [res [Hres [Hlen Hget]]].
    exists res. split; [done|]. split; [|done].
    rewrite compressed_ctor_nonnull in Hh. injection Hh as <-.
    rewrite Hlen. reflexivity. }
  split; [by apply Hall|].
  intros HV. unfold CompressedValuesHolder.ExtractValues. by apply Hall.
Qed.

Lemma extraction_decodes_packed_keys_witness :
  ∃ h, CompressedValuesHolder.ctor (B := IQuantizedCatValuesHolder) 5%N
         (Pack 12 [3000; 101; 4095; 103; 104; 105; 106; 107; 108; 2049; 110]%Z 4096%N)
         (Some (TIndexedSubset [10; 0; 9; 3])) = Ok h ∧
       (∃ res, CompressedValuesHolder.ExtractValuesT Ui16 h (reversed 3) (λ _, 99%Z) = Ok res ∧
               N.of_nat (length res) = CompressedValuesHolder.GetSize h ∧
               ∀ i p, positionOf (TIndexedSubset [10; 0; 9; 3]) i = Some p →
                      res !! i =
                      [3000; 101; 4095; 103; 104; 105; 106; 107; 108; 2049; 110]%Z !! p) ∧
       (∃ res, CompressedValuesHolder.ExtractValues h (reversed 3) (λ _, 99%Z) = Ok res ∧
               N.of_nat (length res) = CompressedValuesHolder.GetSize h ∧
               ∀ i p, positionOf (TIndexedSubset [10; 0; 9; 3]) i = Some p →
                      res !! i =
                      [3000; 101; 4095; 103; 104; 105; 106; 107; 108; 2049; 110]%Z !! p) ∧
       CompressedValuesHolder.ExtractValues h (reversed 3) (λ _, 99%Z) =
         Ok [110; 3000; 2049; 103]%Z.
Proof.
  eexists. split; [reflexivity|].
  lazymatch goal with
  | |- context [CompressedValuesHolder.ExtractValuesT Ui16 ?h _ _] =>
      pose proof (extraction_decodes_packed_keys (B := IQuantizedCatValuesHolder) 5%N 12
                    [3000; 101; 4095; 103; 104; 105; 106; 107; 108; 2049; 110]%Z 4096%N
                    (TIndexedSubset [10; 0; 9; 3]) h Ui16 (reversed 3) (λ _, 99%Z)) as Hthm
  end.
  destruct Hthm as [HT HV].
  - lia.
  - repeat constructor; unfold fits; lia.
  - simpl. lia.
  - repeat constructor; simpl; lia.
  - apply reversed_fair. lia.
  - reflexivity.
  - split; [exact HT|]. split; [|reflexivity]. apply HV. simpl. lia.
Defined.

(** C3: packing a sequence of [b]-bit keys, [b] between 1 and the 64 bits
    of a storage word, wrapping the packed array in a compressed column
    over the identity subset indexing and extracting it in full gives the
    sequence back, for every executor and every target type at least [b]
    bits wide. *)
Theorem pack_extract_roundtrip {B : TBase} featureId b data buffer h T e uninit :
  (1 ≤ b ≤ 64)%Z → Forall (fits b) data → (b ≤ bits T)%Z → fair e →
  CompressedValuesHolder.ctor featureId (Pack b data buffer)
    (Some (TFullSubset (length data))) = Ok h →
  CompressedValuesHolder.ExtractValuesT T h e uninit = Ok data.
Proof.
  intros Hb Hfit HT He Hh.
  rewrite (ExtractValuesT_fair _ _ _ _ _ _ _ Hh He).
  destruct (DecodedValues_Pack T b data buffer (TFullSubset (length data)) Hb Hfit HT)
    as [res [-> [Hlen Hget]]].
  { simpl. apply Forall_forall. intros p Hp%elem_of_seq. lia. }
  f_equal. simpl in Hlen. rewrite length_seq in Hlen.
  apply list_eq. intros i. destruct (Nat.lt_ge_cases i (length data)) as [Hi|Hi].
  - apply Hget. by apply positionOf_full.
  - rewrite !lookup_ge_None_2; [done|lia..].
Qed.

(** The scenario of the specification: [1,2,3,0] at 2 bits per key,
    extracted as bytes. *)
Lemma pack_extract_roundtrip_witness :
  ∃ h, CompressedValuesHolder.ctor (B := IQuantizedFloatValuesHolder) 0%N
         (Pack 2 [1; 2; 3; 0]%Z 4096%N) (Some (TFullSubset 4)) = Ok h ∧
       CompressedValuesHolder.ExtractValues h sequential (λ _, 255%Z) = Ok [1; 2; 3; 0]%Z.
Proof.
  eexists. split; [reflexivity|].
  apply (pack_extract_roundtrip (B := IQuantizedFloatValuesHolder) 0%N 2
           [1; 2; 3; 0]%Z 4096%N _ Ui8 sequential (λ _, 255%Z)).
  - lia.
  - repeat constructor; unfold fits; lia.
  - simpl. lia.
  - apply sequential_fair.
  - reflexivity.
Defined.

(** ** Parallel extraction *)

(** C8: full extraction cut into any positive number of blocks, with the
    tasks of the blocks run in any order, returns what the sequential
    extraction (one block, in index order) returns: the same values at
    the same indices, or the same failure.  What the destination held
    before the tasks ran does not show in the result, and each element of
    a returned array is the key decoded for its own logical index. *)
Theorem extraction_is_schedule_independent {B : TBase}
    (h : CompressedValuesHolder.TCompressedValuesHolderImpl B) T e uninit uninit' :
  fair e →
  CompressedValuesHolder.ExtractValuesT T h e uninit =
  CompressedValuesHolder.ExtractValuesT T h sequential uninit' ∧
  CompressedValuesHolder.ExtractValues h e uninit =
  CompressedValuesHolder.ExtractValues h sequential uninit' ∧
  (∀ s res i,
     CompressedValuesHolder.SubsetIndexing h = Some s →
     CompressedValuesHolder.ExtractValuesT T h e uninit = Ok res →
     (N.of_nat i < ArraySubset.Size s)%N →
     ∃ v, DecodeAt T (CompressedValuesHolder.SrcData h) s i = Ok v ∧ res !! i = Some v).
Proof.
  intros He.
  assert (∀ T', CompressedValuesHolder.ExtractValuesT T' h e uninit =
                CompressedValuesHolder.ExtractValuesT T' h sequential uninit') as Heq.
  { intros T'. destruct h as [base src raw [s|]]; [|reflexivity].
    unfold CompressedValuesHolder.ExtractValuesT, CompressedValuesHolder.GetCompressedData.
    simpl. rewrite !ParallelExtractValues_fair; [done|apply sequential_fair|done]. }
  split; [apply Heq|]. split; [unfold CompressedValuesHolder.ExtractValues; apply Heq|].
  intros s res i Hs. destruct h as [base src raw sub]. simpl in Hs. subst sub.
  unfold CompressedValuesHolder.ExtractValuesT, CompressedValuesHolder.GetCompressedData.
  simpl. rewrite ParallelExtractValues_fair by done. unfold DecodedValues.
  destruct (forallb _ _) eqn:Hall; [|done].
  intros [= <-] Hi. rewrite forallb_forall in Hall.
  assert (i < N.to_nat (ArraySubset.Size s)) as Hlt by lia.
  assert (is_ok (DecodeAt T src s i) = true) as Hok.
  { apply Hall, in_seq. lia. }
  destruct (DecodeAt_cases T src s i) as [Hv|Hv]; [|by rewrite Hv in Hok].
  eexists. split; [exact Hv|].
  by rewrite list_lookup_fmap, lookup_seq_lt.
Qed.

Lemma extraction_is_schedule_independent_witness :
  ∃ h, CompressedValuesHolder.ctor (B := IQuantizedCatValuesHolder) 5%N
         (Pack 7 [100; 101; 102; 103; 104; 105; 106; 107; 108; 109; 110]%Z 4096%N)
         (Some (TRangesSubset [(8, 11); (0, 4)])) = Ok h ∧
       CompressedValuesHolder.ExtractValues h (reversed 3) (λ _, 99%Z) =
       CompressedValuesHolder.ExtractValues h sequential (λ _, 0%Z) ∧
       CompressedValuesHolder.ExtractValues h (reversed 3) (λ _, 99%Z) =
       Ok [108; 109; 110; 100; 101; 102; 103]%Z.
Proof.
  eexists. split; [reflexivity|]. split; [|reflexivity].
  refine (proj1 (proj2 (extraction_is_schedule_independent (B := IQuantizedCatValuesHolder)
                   _ Ui32 (reversed 3) (λ _, 99%Z) (λ _, 0%Z) _))).
  apply reversed_fair. lia.
Defined.

(** * Further properties of the header *)

(** ** Construction never throws *)

(** X1: neither constructor can throw.  With a subset indexing it
    succeeds, without one it dereferences the null pointer; the CB_ENSURE
    of the body cannot fail on any input. *)
Theorem ctor_never_throws :
  (∀ T TType featureId (A : list T) subsetIndexing,
     is_ok (ArrayValuesHolder.ctor TType featureId A subsetIndexing) = nonnull subsetIndexing ∧
     ∀ msg, ArrayValuesHolder.ctor TType featureId A subsetIndexing ≠ Throw msg) ∧
  (∀ (B : TBase) featureId a subsetIndexing,
     is_ok (CompressedValuesHolder.ctor featureId a subsetIndexing) = nonnull subsetIndexing ∧
     ∀ msg, CompressedValuesHolder.ctor featureId a subsetIndexing ≠ Throw msg).
Proof.
  split.
  - intros T TType featureId A [s|]; (split; [reflexivity|]); intros msg.
    + by rewrite raw_ctor_nonnull.
    + discriminate.
  - intros B featureId a [s|]; (split; [reflexivity|]); intros msg.
    + by rewrite compressed_ctor_nonnull.
    + discriminate.
Qed.

(** ** Kind and id *)

Lemma raw_after_tags {T} (h : ArrayValuesHolder.TArrayValuesHolder T) calls :
  Forall (λ c, ArrayValuesHolder.is_assignment c = false) calls →
  ArrayValuesHolder.GetType (foldl ArrayValuesHolder.after h calls) =
    ArrayValuesHolder.GetType h ∧
  ArrayValuesHolder.GetId (foldl ArrayValuesHolder.after h calls) =
    ArrayValuesHolder.GetId h.
Proof.
  intros Hcalls. revert h.
  induction Hcalls as [|c calls Hc _ IH]; intros h; simpl; [done|].
  destruct (IH (ArrayValuesHolder.after h c)) as [-> ->]. by destruct c.
Qed.

Lemma compressed_after_tags {B : TBase}
    (h : CompressedValuesHolder.TCompressedValuesHolderImpl B) calls :
  Forall (λ c, CompressedValuesHolder.is_assignment c = false) calls →
  CompressedValuesHolder.GetType (foldl CompressedValuesHolder.after h calls) =
    CompressedValuesHolder.GetType h ∧
  CompressedValuesHolder.GetId (foldl CompressedValuesHolder.after h calls) =
    CompressedValuesHolder.GetId h.
Proof.
  intros Hcalls. revert h.
  induction Hcalls as [|c calls Hc _ IH]; intros h; simpl; [done|].
  destruct (IH (CompressedValuesHolder.after h c)) as [-> ->]. by destruct c.
Qed.

(** X2: the kind of a column is fixed by its class (the template argument
    of the raw column, the interface of the compressed column) and its id
    is the [featureId] given to the constructor; [GetType] and [GetId]
    return them after any sequence of accessor calls and move
    constructions. *)
Theorem kind_and_id_are_fixed s :
  (∀ T TType featureId (A : list T) h calls,
     ArrayValuesHolder.ctor TType featureId A (Some s) = Ok h →
     Forall (λ c, ArrayValuesHolder.is_assignment c = false) calls →
     ArrayValuesHolder.GetType (foldl ArrayValuesHolder.after h calls) = TType ∧
     ArrayValuesHolder.GetId (foldl ArrayValuesHolder.after h calls) = featureId) ∧
  (∀ (B : TBase) featureId a h calls,
     CompressedValuesHolder.ctor featureId a (Some s) = Ok h →
     Forall (λ c, CompressedValuesHolder.is_assignment c = false) calls →
     CompressedValuesHolder.GetType (foldl CompressedValuesHolder.after h calls) =
       TFeatureValuesType ∧
     CompressedValuesHolder.GetId (foldl CompressedValuesHolder.after h calls) = featureId).
Proof.
  split.
  - intros T TType featureId A h calls Hh Hcalls.
    destruct (raw_after_tags h calls Hcalls) as [-> ->].
    rewrite raw_ctor_nonnull in Hh. by injection Hh as <-.
  - intros B featureId a h calls Hh Hcalls.
    destruct (compressed_after_tags h calls Hcalls) as [-> ->].
    rewrite compressed_ctor_nonnull in Hh. by injection Hh as <-.
Qed.

Lemma kind_and_id_are_fixed_witness :
  (∃ h, ArrayValuesHolder.THashedCatValuesHolder_ctor 11%N [5; 6]%N (Some (TFullSubset 2)) = Ok h ∧
        ArrayValuesHolder.GetType
          (foldl ArrayValuesHolder.after h
             [ArrayValuesHolder.CallMove; ArrayValuesHolder.CallGetArrayData]) = HashedCategorical ∧
        ArrayValuesHolder.GetId
          (foldl ArrayValuesHolder.after h
             [ArrayValuesHolder.CallMove; ArrayValuesHolder.CallGetArrayData]) = 11%N) ∧
  (∃ h, CompressedValuesHolder.ctor (B := IQuantizedCatValuesHolder) 12%N
          (Pack 4 [9; 3]%Z 4096%N) (Some (TFullSubset 2)) = Ok h ∧
        CompressedValuesHolder.GetType
          (foldl CompressedValuesHolder.after h
             [CompressedValuesHolder.CallGetBitsPerKey; CompressedValuesHolder.CallMove]) =
          PerfectHashedCategorical ∧
        CompressedValuesHolder.GetId
          (foldl CompressedValuesHolder.after h
             [CompressedValuesHolder.CallGetBitsPerKey; CompressedValuesHolder.CallMove]) = 12%N).
Proof.
  split; (eexists; split; [reflexivity|]).
  - refine (proj1 (kind_and_id_are_fixed (TFullSubset 2))
              ui32 HashedCategorical 11%N [5; 6]%N _ _ eq_refl _).
    repeat constructor.
  - refine (proj2 (kind_and_id_are_fixed (TFullSubset 2))
              IQuantizedCatValuesHolder 12%N (Pack 4 [9; 3]%Z 4096%N) _ _ eq_refl _).
    repeat constructor.
Defined.

(** ** Reading a raw column through its view *)

(** X7: when the subset indexing is a permutation of the positions of the
    source array (a shuffle), the view of a raw column reaches every
    element of the array at exactly one logical index: nothing is lost and
    nothing is read twice. *)
Theorem shuffled_view_reaches_each_element_once
    {T} TType featureId (A : list T) s h p x :
  ArrayValuesHolder.ctor TType featureId A (Some s) = Ok h →
  positions s ≡ₚ seq 0 (length A) →
  A !! p = Some x →
  ∃ i, positionOf s i = Some p ∧
       at_ (ArrayValuesHolder.GetArrayData h) i = Ok x ∧
       ∀ j, positionOf s j = Some p → j = i.
Proof.
  rewrite raw_ctor_nonnull. intros [= <-] Hperm Hx.
  assert (p ∈ positions s) as Hin.
  { rewrite Hperm. apply elem_of_seq. pose proof (lookup_lt_Some _ _ _ Hx). lia. }
  apply list_elem_of_lookup in Hin as [i Hi].
  exists i. split; [exact Hi|]. split.
  - unfold at_, index. simpl. unfold positionOf in Hi |- *. rewrite Hi. simpl.
    by rewrite Hx.
  - intros j Hj. assert (NoDup (positions s)) as Hnodup.
    { rewrite Hperm. apply NoDup_seq. }
    exact (NoDup_lookup _ _ _ _ Hnodup Hj Hi).
Qed.

Lemma shuffled_view_reaches_each_element_once_witness :
  ∃ h, ArrayValuesHolder.ctor Float 7%N [10; 20; 30]%Z (Some (TIndexedSubset [2; 0; 1])) = Ok h ∧
       ∃ i, positionOf (TIndexedSubset [2; 0; 1]) i = Some 0 ∧
            at_ (ArrayValuesHolder.GetArrayData h) i = Ok 10%Z ∧
            ∀ j, positionOf (TIndexedSubset [2; 0; 1]) j = Some 0 → j = i.
Proof.
  eexists. split; [reflexivity|].
  apply (shuffled_view_reaches_each_element_once Float 7%N [10; 20; 30]%Z
           (TIndexedSubset [2; 0; 1])).
  - reflexivity.
  - simpl. apply Permutation_sym.
    apply (Permutation_cons_app [2] [1] 0). apply perm_swap.
  - reflexivity.
Defined.

(** ** The two zero-copy views of a compressed column *)

(** X11: on a compressed column, after any sequence of calls (move
    constructions, and move assignments of columns whose raw pointer is
    cached), the raw-pointer view of [GetArrayData] and the packed view of
    [GetCompressedData] address the same buffer through the same subset
    indexing, and [GetBitsPerKey] is the width of that packed view. *)
Theorem views_share_buffer_and_subset {B : TBase} featureId a s h calls T view :
  CompressedValuesHolder.ctor featureId a (Some s) = Ok h →
  Forall CompressedValuesHolder.assigns_cached calls →
  CompressedValuesHolder.GetArrayData T (foldl CompressedValuesHolder.after h calls) = Ok view →
  ArraySubset.Src view =
    GetRawPtr (ArraySubset.Src
      (CompressedValuesHolder.GetCompressedData (foldl CompressedValuesHolder.after h calls))) ∧
  ArraySubset.SubsetIndexing view =
    ArraySubset.SubsetIndexing
      (CompressedValuesHolder.GetCompressedData (foldl CompressedValuesHolder.after h calls)) ∧
  GetBitsPerKey (ArraySubset.Src
    (CompressedValuesHolder.GetCompressedData (foldl CompressedValuesHolder.after h calls))) =
    bits T.
Proof.
  intros Hh Hcalls.
  assert (CompressedValuesHolder.raw_ptr_cached
            (foldl CompressedValuesHolder.after h calls)) as Hcached.
  { apply compressed_after_cached; [|done].
    rewrite compressed_ctor_nonnull in Hh. by injection Hh as <-. }
  revert Hcached. generalize (foldl CompressedValuesHolder.after h calls). intros h' Hcached.
  unfold CompressedValuesHolder.GetArrayData, CheckIfCanBeInterpretedAsRawArray.
  destruct (bool_decide_reflect (BitsPerKey (CompressedValuesHolder.SrcData h') = bits T))
    as [Hb|]; [|done].
  simpl. intros [= <-]. simpl. done.
Qed.

Lemma views_share_buffer_and_subset_witness :
  ∃ h arg view,
    CompressedValuesHolder.ctor (B := IQuantizedCatValuesHolder) 2%N
      (Pack 4 [9; 3]%Z 4096%N) (Some (TFullSubset 2)) = Ok h ∧
    CompressedValuesHolder.ctor (B := IQuantizedCatValuesHolder) 3%N
      (Pack 32 [70000; 1; 2]%Z 8192%N) (Some (TIndexedSubset [2; 0])) = Ok arg ∧
    CompressedValuesHolder.GetArrayData Ui32
      (foldl CompressedValuesHolder.after h
         [CompressedValuesHolder.CallMoveAssign arg; CompressedValuesHolder.CallMove]) = Ok view ∧
    ArraySubset.Src view =
      GetRawPtr (ArraySubset.Src
        (CompressedValuesHolder.GetCompressedData
           (foldl CompressedValuesHolder.after h
              [CompressedValuesHolder.CallMoveAssign arg; CompressedValuesHolder.CallMove]))) ∧
    ArraySubset.SubsetIndexing view =
      ArraySubset.SubsetIndexing
        (CompressedValuesHolder.GetCompressedData
           (foldl CompressedValuesHolder.after h
              [CompressedValuesHolder.CallMoveAssign arg; CompressedValuesHolder.CallMove])) ∧
    GetBitsPerKey (ArraySubset.Src
      (CompressedValuesHolder.GetCompressedData
         (foldl CompressedValuesHolder.after h
            [CompressedValuesHolder.CallMoveAssign arg; CompressedValuesHolder.CallMove]))) =
      bits Ui32.
Proof.
  do 3 eexists. split; [reflexivity|]. split; [reflexivity|]. split; [reflexivity|].
  eapply (views_share_buffer_and_subset (B := IQuantizedCatValuesHolder) 2%N
            (Pack 4 [9; 3]%Z 4096%N) (TFullSubset 2)).
  - reflexivity.
  - repeat constructor.
  - reflexivity.
Defined.

(** * Balanced accuracy *)

Section BalancedAccuracyFacts.
Import BalancedAccuracy.

Lemma add_comm x y : add x y = add y x.
Proof.
  unfold add. destruct x as [sx|sx| |sx mx ex], y as [sy|sy| |sy my ey];
    try reflexivity; try (by destruct sx, sy).
  unfold SFadd. by rewrite (Z.min_comm ex ey), Z.add_comm.
Qed.

(** Every [double] but NaN compares equal to itself. *)
Lemma eq_refl_not_nan x : x ≠ S754_nan → eq x x = true.
Proof.
  intros Hx. unfold eq, SFeqb.
  destruct x as [s|s| |s m e]; [done|by destruct s|done|].
  simpl. rewrite Z.compare_refl, Pos.compare_cont_refl. by destruct s.
Qed.

Lemma Calc_four a b c d rest :
  CalcBalancedAccuracyMetric {| Stats := a :: b :: c :: d :: rest |} =
  Ok (if eq a b && eq c d then of_int 1
      else div (add (if gt b (of_int 0) then div a b else of_int 0)
                    (if gt d (of_int 0) then div c d else of_int 0))
               (of_int 2)).
Proof.
  unfold CalcBalancedAccuracyMetric, index.
  cbn [Stats lookup list_lookup from_option mbind outcome_bind bind].
  destruct (gt b (of_int 0)), (gt d (of_int 0)), (eq a b), (eq c d); reflexivity.
Qed.

(** X8: the function reads the first four statistics and nothing else: on
    a holder with fewer than four it reads out of bounds, and on a holder
    with at least four its result is the one for the first four alone. *)
Theorem CalcBalancedAccuracyMetric_reads_four (error : TMetricHolder) :
  (length (Stats error) < 4 →
   CalcBalancedAccuracyMetric error = Undefined OutOfBounds) ∧
  (4 ≤ length (Stats error) →
   is_ok (CalcBalancedAccuracyMetric error) = true ∧
   CalcBalancedAccuracyMetric error =
   CalcBalancedAccuracyMetric {| Stats := take 4 (Stats error) |}).
Proof.
  split; intros Hlen; destruct error as [[|a [|b [|c [|d rest]]]]];
    simpl in Hlen; try lia.
  - reflexivity.
  - reflexivity.
  - unfold CalcBalancedAccuracyMetric, index.
    cbn [Stats lookup list_lookup from_option mbind outcome_bind bind].
    by destruct (gt b (of_int 0)).
  - unfold CalcBalancedAccuracyMetric, index.
    cbn [Stats lookup list_lookup from_option mbind outcome_bind bind].
    by destruct (gt b (of_int 0)).
  - cbn [Stats take]. rewrite !Calc_four. split; reflexivity.
Qed.

Lemma CalcBalancedAccuracyMetric_reads_four_witness :
  CalcBalancedAccuracyMetric {| Stats := [of_int 1; of_int 2; of_int 3] |} =
    Undefined OutOfBounds ∧
  CalcBalancedAccuracyMetric {| Stats := [of_int 1; of_int 2; of_int 3; of_int 4; S754_nan] |} =
    CalcBalancedAccuracyMetric {| Stats := [of_int 1; of_int 2; of_int 3; of_int 4] |}.
Proof.
  split.
  - apply (proj1 (CalcBalancedAccuracyMetric_reads_four
                    {| Stats := [of_int 1; of_int 2; of_int 3] |})).
    simpl. lia.
  - apply (proj2 (CalcBalancedAccuracyMetric_reads_four
                    {| Stats := [of_int 1; of_int 2; of_int 3; of_int 4; S754_nan] |})).
    simpl. lia.
Defined.

(** X9: the metric does not change when the statistics of the positive
    class (Stats[0], Stats[1]) and of the negative class (Stats[2],
    Stats[3]) are exchanged. *)
Theorem CalcBalancedAccuracyMetric_class_symmetric a b c d rest rest' :
  CalcBalancedAccuracyMetric {| Stats := a :: b :: c :: d :: rest |} =
  CalcBalancedAccuracyMetric {| Stats := c :: d :: a :: b :: rest' |}.
Proof.
  rewrite !Calc_four. rewrite (andb_comm (eq a b)). by rewrite add_comm.
Qed.

(** X10: when the true positives equal the positives and the true
    negatives equal the negatives the metric is exactly 1, for all values
    but NaN; so also when a class is absent and its ratio would be 0/0,
    as for statistics that are all zero. *)
Theorem CalcBalancedAccuracyMetric_perfect positives negatives rest :
  positives ≠ S754_nan → negatives ≠ S754_nan →
  CalcBalancedAccuracyMetric
    {| Stats := positives :: positives :: negatives :: negatives :: rest |} = Ok (of_int 1).
Proof.
  intros Hp Hn. rewrite Calc_four.
  by rewrite (eq_refl_not_nan _ Hp), (eq_refl_not_nan _ Hn).
Qed.

Lemma CalcBalancedAccuracyMetric_perfect_witness :
  CalcBalancedAccuracyMetric
    {| Stats := [of_int 0; of_int 0; of_int 0; of_int 0] |} = Ok (of_int 1).
Proof.
  apply (CalcBalancedAccuracyMetric_perfect (of_int 0) (of_int 0) []); discriminate.
Defined.

End BalancedAccuracyFacts.
